(** * GoReconX execution core: module scaffold, event stream, fan-out,
      result merge and scan lifecycle manager.

    A shallow embedding of the Go sources

      - package [modules]: [BaseModule] and the [Module] interface,
        [PortScanModule.Execute], the merge loops of
        [EmailEnumModule.Execute];
      - package [core]: [ModuleAdapter], [Application.GetModule],
        [ScanManager] ([StartScan], [CancelScan], [executeScan]).

    Conventions.
      - Go [int] is 64 bits; every integer below is a count, a port or a
        confidence and is far from the bounds, so [Z] is used as is.
      - [float64] is Rocq's primitive binary64 [float]; the literals are
        the ones of the source and are rounded exactly as Go rounds them.
      - A buffered channel is its capacity and the queue it holds.  Every
        channel made by this code has a positive capacity, so a send
        succeeds exactly when the queue has room.
      - Wall-clock fields ([Timestamp], [StartTime], [ElapsedTime],
        [ScanTime], [StartedAt], [CompletedAt]) are not modelled. *)

Set Warnings "-inexact-float".
From Stdlib Require Import ZArith List String Ascii Floats Lia Bool.
From stdpp Require Import base option list sorting gmap strings pretty.

Local Open Scope Z_scope.
Local Open Scope string_scope.

(** ** Channels *)

Module Chan.

Record chan (A : Type) : Type := Chan { cap : nat; buf : list A }.
Arguments Chan {A} _ _.
Arguments cap {A} _.
Arguments buf {A} _.

(** [make(chan A, n)] *)
Definition make {A} (n : nat) : chan A := Chan n [].

Definition has_room {A} (c : chan A) : bool :=
  bool_decide (length (buf c) < cap c)%nat.

(** [select { case c <- x: default: }]: the flag tells whether the value
    was queued. *)
Definition try_send {A} (c : chan A) (x : A) : chan A * bool :=
  if has_room c then (Chan (cap c) (buf c ++ [x])%list, true) else (c, false).

(** [select { case v := <-c: ... default: ... }] *)
Definition try_recv {A} (c : chan A) : chan A * option A :=
  match buf c with
  | [] => (c, None)
  | x :: rest => (Chan (cap c) rest, Some x)
  end.

(** [c <- x]: [None] when the sender has to wait. *)
Definition send {A} (c : chan A) (x : A) : option (chan A) :=
  if has_room c then Some (Chan (cap c) (buf c ++ [x])%list) else None.

(** [<-c]: [None] when the receiver has to wait. *)
Definition recv {A} (c : chan A) : option (chan A * A) :=
  match buf c with
  | [] => None
  | x :: rest => Some (Chan (cap c) rest, x)
  end.

End Chan.
Import Chan.

(** ** Package modules: the module scaffold *)

Record ModuleInfo : Type := {
  Name : string;
  Category : string;
  Description : string;
  Version : string;
  Author : string;
  Tags : list string;
  Requirements : list string
}.

(** PortInfo contains information about an open port *)
Record PortInfo : Type := {
  Port : Z;
  Protocol : string;
  State : string;
  Service : string;
  PVersion : string;
  Banner : string
}.

(** PortScanResult represents port scan results *)
Record PortScanResult : Type := {
  RTarget : string;
  OpenPorts : list PortInfo;
  ClosedPorts : list Z;
  TotalPorts : Z;
  ScanType : string
}.

(** The [interface{}] values that travel through options, event payloads
    and metadata. *)
Inductive Value : Type :=
| VNil
| VBool (b : bool)
| VInt (z : Z)
| VString (s : string)
| VOpenPort (p : PortInfo)          (* {"type": "open_port", "port": p} *)
| VPortScanResult (r : PortScanResult).

Record ModuleInput : Type := {
  Target : string;
  Options : gmap string Value;
  SessionID : string
}.

(** ModuleResult represents a single result from module execution *)
Record ModuleResult : Type := {
  Type_ : string;                   (* progress, data, error, complete *)
  Data : Value;
  Metadata : gmap string Value;
  RSessionID : string;
  RModule : string
}.

(** ModuleStatus represents the current status of a module *)
Record ModuleStatus : Type := {
  IsRunning : bool;
  Progress : float;                 (* 0.0 to 1.0 *)
  Status : string;                  (* idle, running, completed, error, stopped *)
  Message : string
}.

Record ModuleError : Type := { EMessage : string; ECode : string }.

Definition NewModuleError (message code : string) : ModuleError :=
  {| EMessage := message; ECode := code |}.

(** BaseModule provides a basic implementation that modules can embed *)
Record BaseModule : Type := {
  info : ModuleInfo;
  status : ModuleStatus;
  stopCh : chan bool
}.

Definition NewBaseModule (i : ModuleInfo) : BaseModule :=
  {| info := i;
     status := {| IsRunning := false; Progress := 0%float;
                  Status := "idle"; Message := "" |};
     stopCh := make 1 |}.

Definition GetInfo (b : BaseModule) : ModuleInfo := info b.

Definition GetStatus (b : BaseModule) : ModuleStatus := status b.

(** Stop stops the module execution *)
Definition Stop (b : BaseModule) : BaseModule :=
  let ch := fst (try_send (stopCh b) true) in
  {| info := info b;
     status := {| IsRunning := false; Progress := Progress (status b);
                  Status := "stopped"; Message := Message (status b) |};
     stopCh := ch |}.

(** SetStatus updates the module status *)
Definition SetStatus (b : BaseModule) (st : string) (progress : float)
    (message : string) : BaseModule :=
  let running :=
    if bool_decide (st = "running") && negb (IsRunning (status b)) then true
    else if bool_decide (st = "completed") || bool_decide (st = "error")
            || bool_decide (st = "stopped") then false
    else IsRunning (status b) in
  {| info := info b;
     status := {| IsRunning := running; Progress := progress;
                  Status := st; Message := message |};
     stopCh := stopCh b |}.

(** IsStopped checks if the module should stop *)
Definition IsStopped (b : BaseModule) : BaseModule * bool :=
  match try_recv (stopCh b) with
  | (ch, Some _) => ({| info := info b; status := status b; stopCh := ch |}, true)
  | (_, None) => (b, false)
  end.

(** SendResult sends a result through the output channel *)
Definition SendResult (b : BaseModule) (output : chan ModuleResult)
    (resultType : string) (data : Value) (metadata : gmap string Value)
    (sessionID : string) : chan ModuleResult :=
  let result := {| Type_ := resultType; Data := data; Metadata := metadata;
                   RSessionID := sessionID; RModule := Name (info b) |} in
  fst (try_send output result).

(** ValidateInput provides basic input validation *)
Definition ValidateInput (input : ModuleInput) : option ModuleError :=
  if bool_decide (Target input = "")
  then Some (NewModuleError "target is required" "INVALID_INPUT")
  else None.

(** ** Package modules: the option map *)

(** [v, _ := input.Options[k].(int)]: the zero value when the key is
    absent or holds another type. *)
Definition opt_int (o : gmap string Value) (k : string) : Z :=
  match o !! k with Some (VInt z) => z | _ => 0 end.

Definition opt_bool (o : gmap string Value) (k : string) : bool :=
  match o !! k with Some (VBool b) => b | _ => false end.

Definition opt_string (o : gmap string Value) (k : string) : string :=
  match o !! k with Some (VString s) => s | _ => "" end.

(** [float64(n)] for a count [n]. *)
Definition float64 (n : Z) : float := PrimFloat.of_uint63 (Uint63.of_Z n).

(** ** Package modules: the port scanner *)

(** The network and the text parser the scanner calls into. *)
Record Env : Type := {
  parseIP : string -> bool;               (* net.ParseIP(s) != nil *)
  lookupHost : string -> bool;            (* net.LookupHost(s) succeeds *)
  scanPort : string -> Z -> bool;         (* the TCP connect succeeds *)
  detectService : string -> Z -> string;
  grabBanner : string -> Z -> string;
  parseCustom : string -> list Z          (* parsePorts on a custom list *)
}.

Record PortScanModule : Type := {
  base : BaseModule;
  semaphore : chan bool
}.

Definition port_scan_info : ModuleInfo :=
  {| Name := "port_scan";
     Category := "active_recon";
     Description := "Network port scanner with service detection";
     Version := "1.0.0";
     Author := "GoReconX Team";
     Tags := ["port"; "scan"; "network"; "service"; "active"];
     Requirements := ["network"] |}.

Definition NewPortScanModule : PortScanModule :=
  {| base := NewBaseModule port_scan_info; semaphore := make 100 |}.

Definition ascii_lower (c : ascii) : ascii :=
  let n := nat_of_ascii c in
  if bool_decide (65 <= n <= 90)%nat then ascii_of_nat (n + 32) else c.

(** [strings.ToLower] on the ASCII letters. *)
Fixpoint ToLower (s : string) : string :=
  match s with
  | EmptyString => EmptyString
  | String c r => String (ascii_lower c) (ToLower r)
  end.

Definition commonPorts : list Z :=
  [21; 22; 23; 25; 53; 80; 110; 111; 135; 139; 143; 443; 993; 995;
   1723; 3306; 3389; 5432; 5900; 6379; 8080; 8443; 27017].

(** parsePorts parses port specification into a list of ports *)
Definition parsePorts (env : Env) (portsSpec : string) : list Z :=
  let l := ToLower portsSpec in
  if bool_decide (l = "common") then commonPorts
  else if bool_decide (l = "all") then seqZ 1 65535
  else if bool_decide (l = "well-known") then seqZ 1 1023
  else parseCustom env portsSpec.

(** getServiceName returns the common service name for a port *)
Definition serviceMap : list (Z * string) :=
  [(21, "FTP"); (22, "SSH"); (23, "Telnet"); (25, "SMTP"); (53, "DNS");
   (80, "HTTP"); (110, "POP3"); (111, "RPC"); (135, "MS-RPC");
   (139, "NetBIOS-SSN"); (143, "IMAP"); (443, "HTTPS"); (445, "SMB");
   (993, "IMAPS"); (995, "POP3S"); (1433, "MSSQL"); (1521, "Oracle");
   (1723, "PPTP"); (3306, "MySQL"); (3389, "RDP"); (5432, "PostgreSQL");
   (5900, "VNC"); (6379, "Redis"); (8080, "HTTP-Proxy");
   (8443, "HTTPS-Alt"); (27017, "MongoDB")].

Definition getServiceName (port : Z) : string :=
  match find (fun e => bool_decide (fst e = port)) serviceMap with
  | Some e => snd e
  | None => "unknown"
  end.

(** Validate validates the module input *)
Definition PortScan_Validate (env : Env) (input : ModuleInput)
    : option ModuleError :=
  match ValidateInput input with
  | Some err => Some err
  | None =>
      if negb (parseIP env (Target input)) && negb (lookupHost env (Target input))
      then Some (NewModuleError
                   "invalid target: must be valid IP or hostname" "INVALID_TARGET")
      else None
  end.

(** What [Execute] holds while its loop runs: the module, the output
    channel, the two result slices and [scannedCount]. *)
Record ScanLoop : Type := {
  sl_mod : PortScanModule;
  sl_out : chan ModuleResult;
  sl_open : list PortInfo;
  sl_closed : list Z;
  sl_scanned : Z
}.

Definition with_base (p : PortScanModule) (b : BaseModule) : PortScanModule :=
  {| base := b; semaphore := semaphore p |}.

(** The body of [go func(port int) { ... }(port)], run from the semaphore
    acquire to the deferred progress update.  [total] is [len(ports)]. *)
Definition scanWorker (env : Env) (input : ModuleInput)
    (serviceDetection bannerGrab : bool) (total : Z) (s : ScanLoop) (port : Z)
    : ScanLoop :=
  let p := sl_mod s in
  match send (semaphore p) true with           (* p.semaphore <- true *)
  | None => s
  | Some sem1 =>
      let '(opn, closed, out) :=
        if scanPort env (Target input) port then
          let portInfo :=
            {| Port := port; Protocol := "tcp"; State := "open";
               Service := getServiceName port;
               PVersion := if serviceDetection
                           then detectService env (Target input) port else "";
               Banner := if bannerGrab
                         then grabBanner env (Target input) port else "" |} in
          ((sl_open s ++ [portInfo])%list, sl_closed s,
           SendResult (base p) (sl_out s) "data" (VOpenPort portInfo) ∅
             (SessionID input))
        else (sl_open s, (sl_closed s ++ [port])%list, sl_out s) in
      (* deferred: <-p.semaphore *)
      let sem2 := match recv sem1 with Some (c, _) => c | None => sem1 end in
      (* deferred: scannedCount++ and the progress update, under the mutex *)
      let scanned := sl_scanned s + 1 in
      let progress := (float64 scanned / float64 total)%float in
      let b := SetStatus (base p) "running" progress
                 ("Scanned " ++ pretty scanned ++ "/" ++ pretty total ++ " ports") in
      {| sl_mod := {| base := b; semaphore := sem2 |};
         sl_out := out; sl_open := opn; sl_closed := closed;
         sl_scanned := scanned |}
  end.

(** [for _, port := range ports { if p.IsStopped() { break }; go ... }]
    followed by [wg.Wait()], on the schedule in which each worker runs to
    its end before the next one is launched. *)
Fixpoint scanPorts (env : Env) (input : ModuleInput)
    (serviceDetection bannerGrab : bool) (total : Z) (ports : list Z)
    (s : ScanLoop) : ScanLoop :=
  match ports with
  | [] => s
  | port :: rest =>
      let '(b, stopped) := IsStopped (base (sl_mod s)) in
      let s1 := {| sl_mod := with_base (sl_mod s) b; sl_out := sl_out s;
                   sl_open := sl_open s; sl_closed := sl_closed s;
                   sl_scanned := sl_scanned s |} in
      if stopped then s1
      else scanPorts env input serviceDetection bannerGrab total rest
             (scanWorker env input serviceDetection bannerGrab total s1 port)
  end.

Definition port_le (a b : PortInfo) : Prop := Port a <= Port b.

#[global] Instance port_le_dec a b : Decision (port_le a b).
Proof. unfold port_le. apply _. Defined.

(** The ["complete"] event [Execute] ends with. *)
Definition completeEvent (target scanType : string) (total : Z)
    (opn : list PortInfo) (closed : list Z) : Value :=
  VPortScanResult {| RTarget := target; OpenPorts := opn;
                     ClosedPorts := closed; TotalPorts := total;
                     ScanType := scanType |}.

(** Execute runs the port scanning module *)
Definition PortScan_Execute (env : Env) (p : PortScanModule)
    (input : ModuleInput) (output : chan ModuleResult)
    : PortScanModule * chan ModuleResult * option ModuleError :=
  let b0 := SetStatus (base p) "running" 0%float "Starting port scan" in
  let threads := opt_int (Options input) "threads" in
  let threads := if bool_decide (threads <= 0) then 100 else threads in
  let p1 := {| base := b0; semaphore := make (Z.to_nat threads) |} in
  let serviceDetection := opt_bool (Options input) "service_detection" in
  let bannerGrab := opt_bool (Options input) "banner_grab" in
  let scanType := opt_string (Options input) "scan_type" in
  let scanType := if bool_decide (scanType = "") then "tcp_connect" else scanType in
  let portsOption := opt_string (Options input) "ports" in
  let portsOption := if bool_decide (portsOption = "") then "common" else portsOption in
  let ports := parsePorts env portsOption in
  let total := Z.of_nat (length ports) in
  if bool_decide (total = 0)
  then (p1, output, Some (NewModuleError "no valid ports to scan" "NO_PORTS"))
  else
    let out1 := SendResult b0 output "progress"
                  (VString ("Scanning " ++ pretty total ++ " ports on " ++ Target input))
                  ∅ (SessionID input) in
    let s := scanPorts env input serviceDetection bannerGrab total ports
               {| sl_mod := p1; sl_out := out1; sl_open := [];
                  sl_closed := []; sl_scanned := 0 |} in
    let opn := merge_sort port_le (sl_open s) in
    let closed := merge_sort Z.le (sl_closed s) in
    let nopen := Z.of_nat (length opn) in
    let b2 := SetStatus (base (sl_mod s)) "completed" 1%float
                ("Scan completed: " ++ pretty nopen ++ " open ports found") in
    let out2 := SendResult b2 (sl_out s) "complete"
                  (completeEvent (Target input) scanType total opn closed)
                  {[ "open_ports" := VInt nopen ]} (SessionID input) in
    (with_base (sl_mod s) b2, out2, None).

(** ** The interface [modules.Module] *)

Class ModuleIface (S : Type) : Type := {
  mGetInfo : S -> ModuleInfo;
  mValidate : S -> ModuleInput -> option ModuleError;
  mExecute : S -> ModuleInput -> chan ModuleResult
             -> S * chan ModuleResult * option ModuleError;
  mStop : S -> S;
  mGetStatus : S -> ModuleStatus
}.

#[global] Instance PortScan_iface (env : Env) : ModuleIface PortScanModule := {
  mGetInfo p := GetInfo (base p);
  mValidate _ := PortScan_Validate env;
  mExecute := PortScan_Execute env;
  mStop p := with_base p (Stop (base p));
  mGetStatus p := GetStatus (base p)
}.

(** ** The bounded fan-out of the probe modules

    [PortScanModule.Execute] and [WebEnumModule.Execute] share one
    pattern: the loop launches a goroutine per candidate; the goroutine
    sends on the semaphore channel before its check and receives from it
    when the check is over. *)

Inductive WorkerPc : Type :=
| Waiting      (* launched, before [semaphore <- true] *)
| Checking     (* holds a semaphore slot: [scanPort] / [testPath] runs *)
| Finished.    (* after the deferred [<-semaphore] *)

#[global] Instance WorkerPc_eq_dec : EqDecision WorkerPc.
Proof. solve_decision. Defined.

Record FanOut (C : Type) : Type := {
  pending : list C;                 (* candidates the loop has not reached *)
  workers : list (C * WorkerPc);    (* the goroutines launched so far *)
  sem : chan bool
}.
Arguments pending {C} _.
Arguments workers {C} _.
Arguments sem {C} _.

Inductive FanLabel : Type :=
| Launch             (* the loop launches the goroutine of the next candidate *)
| Break              (* [IsStopped()] held: the loop is left *)
| Acquire (i : nat)  (* worker [i] gets through [semaphore <- true] *)
| Release (i : nat). (* worker [i] ends its check and runs [<-semaphore] *)

Definition fan_init {C} (candidates : list C) (limit : nat) : FanOut C :=
  {| pending := candidates; workers := []; sem := make limit |}.

Definition fan_exec {C} (l : FanLabel) (f : FanOut C) : option (FanOut C) :=
  match l with
  | Launch =>
      match pending f with
      | [] => None
      | c :: rest =>
          Some {| pending := rest; workers := (workers f ++ [(c, Waiting)])%list;
                  sem := sem f |}
      end
  | Break =>
      match pending f with
      | [] => None
      | _ :: _ => Some {| pending := []; workers := workers f; sem := sem f |}
      end
  | Acquire i =>
      match workers f !! i with
      | Some (c, Waiting) =>
          match send (sem f) true with
          | Some s => Some {| pending := pending f;
                              workers := <[i := (c, Checking)]> (workers f);
                              sem := s |}
          | None => None
          end
      | _ => None
      end
  | Release i =>
      match workers f !! i with
      | Some (c, Checking) =>
          match recv (sem f) with
          | Some (s, _) => Some {| pending := pending f;
                                   workers := <[i := (c, Finished)]> (workers f);
                                   sem := s |}
          | None => None
          end
      | _ => None
      end
  end.

Fixpoint fan_run {C} (ls : list FanLabel) (f : FanOut C) : option (FanOut C) :=
  match ls with
  | [] => Some f
  | l :: rest => match fan_exec l f with
                 | Some f' => fan_run rest f'
                 | None => None
                 end
  end.

Definition is_checking {C} (w : C * WorkerPc) : bool :=
  bool_decide (snd w = Checking).

(** The number of checks in flight. *)
Definition inflight {C} (f : FanOut C) : nat :=
  length (List.filter is_checking (workers f)).

(** ** Package modules: the merge loops of [EmailEnumModule.Execute] *)

Module EmailEnum.

(** EmailInfo contains email information *)
Record EmailInfo : Type := {
  Email : string;
  EName : string;
  Position : string;
  Department : string;
  Sources : list string;
  Confidence : Z;
  LastSeen : string
}.

Definition max (a b : Z) : Z := if bool_decide (a > b) then a else b.

(** [emailMap := make(map[string]*EmailInfo)] holds pointers: the records
    live in [cells], and [emailMap] maps an address to the cell of its
    record.  [next] is the next free cell. *)
Record MergeState : Type := {
  cells : gmap nat EmailInfo;
  next : nat;
  emailMap : gmap string nat
}.

Definition empty : MergeState :=
  {| cells := ∅; next := 0%nat; emailMap := ∅ |}.

(** What [&email] denotes in [for _, email := range xs]: one variable
    for the whole loop (the language up to Go 1.21, the version the
    README asks for) or one per iteration (from Go 1.22 on).  The [go]
    directive of the module file decides; it is not part of the
    sources, so the rule is a parameter. *)
Inductive LoopVar : Type := PerLoop | PerIteration.

Definition zero : EmailInfo :=
  {| Email := ""; EName := ""; Position := ""; Department := "";
     Sources := []; Confidence := 0; LastSeen := "" |}.

Definition alloc (st : MergeState) (e : EmailInfo) : MergeState * nat :=
  ({| cells := <[next st := e]> (cells st); next := S (next st);
      emailMap := emailMap st |}, next st).

Definition store (st : MergeState) (q : nat) (e : EmailInfo) : MergeState :=
  {| cells := <[q := e]> (cells st); next := next st;
     emailMap := emailMap st |}.

Definition set_sources (l : list string) (r : EmailInfo) : EmailInfo :=
  {| Email := Email r; EName := EName r; Position := Position r;
     Department := Department r; Sources := l;
     Confidence := Confidence r; LastSeen := LastSeen r |}.

Definition set_confidence (c : Z) (r : EmailInfo) : EmailInfo :=
  {| Email := Email r; EName := EName r; Position := Position r;
     Department := Department r; Sources := Sources r;
     Confidence := c; LastSeen := LastSeen r |}.

(** The two statements of the [exists] branch, on the cells [existing]
    and [&email] point to. *)
Definition mergeInto (h : gmap nat EmailInfo) (existing email : nat)
    : gmap nat EmailInfo :=
  (* existing.Sources = append(existing.Sources, email.Sources...) *)
  let h1 := match h !! existing, h !! email with
            | Some r, Some e => <[existing := set_sources (Sources r ++ Sources e) r]> h
            | _, _ => h
            end in
  (* existing.Confidence = max(existing.Confidence, email.Confidence) *)
  match h1 !! existing, h1 !! email with
  | Some r, Some e =>
      <[existing := set_confidence (max (Confidence r) (Confidence e)) r]> h1
  | _, _ => h1
  end.

(** The loop body, [q] being [&email]:
    [if existing, exists := emailMap[email.Email]; exists { ... }
     else { emailMap[email.Email] = &email }] *)
Definition mergeBody (st : MergeState) (q : nat) : MergeState :=
  match cells st !! q with
  | None => st
  | Some email =>
      match emailMap st !! Email email with
      | Some existing =>
          {| cells := mergeInto (cells st) existing q; next := next st;
             emailMap := emailMap st |}
      | None =>
          {| cells := cells st; next := next st;
             emailMap := <[Email email := q]> (emailMap st) |}
      end
  end.

(** One iteration with a variable of its own. *)
Definition iterFresh (st : MergeState) (x : EmailInfo) : MergeState :=
  let '(st1, q) := alloc st x in mergeBody st1 q.

(** One iteration on the variable [q] of the loop. *)
Definition iterShared (q : nat) (st : MergeState) (x : EmailInfo) : MergeState :=
  mergeBody (store st q x) q.

(** [for _, email := range xs { ... }] *)
Definition mergeLoop (lv : LoopVar) (st : MergeState) (xs : list EmailInfo)
    : MergeState :=
  match lv with
  | PerIteration => foldl iterFresh st xs
  | PerLoop => let '(st1, q) := alloc st zero in foldl (iterShared q) st1 xs
  end.

(** The merge loops of [Execute] run one after the other on the lists
    the techniques returned (search engines, Hunter.io, website crawl,
    deep search). *)
Definition mergePhases (lv : LoopVar) (techniques : list (list EmailInfo))
    : MergeState :=
  foldl (mergeLoop lv) empty techniques.

(** The mapping [for _, email := range emailMap { ... *email ... }]
    reads: each address with the record its pointer leads to. *)
Definition view (st : MergeState) : gmap string EmailInfo :=
  omap (fun p => cells st !! p) (emailMap st).

(** The merge rule on records, without the pointers. *)
Definition merged (existing email : EmailInfo) : EmailInfo :=
  {| Email := Email existing; EName := EName existing;
     Position := Position existing; Department := Department existing;
     Sources := Sources existing ++ Sources email;
     Confidence := max (Confidence existing) (Confidence email);
     LastSeen := LastSeen existing |}.

Definition mergeRecord (m : gmap string EmailInfo) (x : EmailInfo)
    : gmap string EmailInfo :=
  match m !! Email x with
  | Some r => <[Email x := merged r x]> m
  | None => <[Email x := x]> m
  end.

(** The first record of [xs] filed under [k]. *)
Definition first_for (k : string) (xs : list EmailInfo) : option EmailInfo :=
  List.find (fun e => bool_decide (Email e = k)) xs.

(** Two records with the same fields, sources and confidence apart. *)
Definition same_fields (r x : EmailInfo) : Prop :=
  Email r = Email x /\ EName r = EName x /\ Position r = Position x /\
  Department r = Department x /\ LastSeen r = LastSeen x.

(** Two mappings that agree on identities, confidences and, up to
    order, sources. *)
Definition agree (m1 m2 : gmap string EmailInfo) : Prop :=
  forall k, match m1 !! k, m2 !! k with
            | Some a, Some b =>
                Confidence a = Confidence b /\ Sources a ≡ₚ Sources b
            | None, None => True
            | _, _ => False
            end.

End EmailEnum.

(** ** Package core: modules as the application sees them *)

(** What [Execute(target string) (interface{}, error)] returns: the
    collected events, or the message of the error. *)
Definition Outcome : Type := (list ModuleResult + string)%type.

(** Module interface for compatibility: [GetName] and [Execute], nothing
    else. *)
Record Module : Type := {
  GetName : string;
  Execute : string -> Outcome
}.

(** ModuleAdapter adapts the new module interface to the old one.  The
    collecting loop runs after [Execute] has returned, so it reads what
    the buffer of the channel holds. *)
Definition ModuleAdapter {S} {iface : ModuleIface S} (m : S) : Module :=
  {| GetName := Name (mGetInfo m);
     Execute target :=
       let input := {| Target := target; Options := ∅; SessionID := "default" |} in
       let '(_, output, err) := mExecute m input (make 100) in
       match err with
       | Some e => inr (EMessage e)
       | None => inl (buf output)
       end |}.

Record Session : Type := {
  SessID : string;
  SessResults : gmap string (gmap string (list ModuleResult))
}.

Record Application : Type := {
  modules : gmap string Module;
  sessions : gmap string Session
}.

Definition GetModule (a : Application) (name : string) : option Module :=
  modules a !! name.

Definition GetSession (a : Application) (id : string) : option Session :=
  sessions a !! id.

Definition UpdateSession (a : Application) (s : Session) : Application :=
  {| modules := modules a; sessions := <[SessID s := s]> (sessions a) |}.

(** ** Package core: the scan manager *)

(** ScanExecution represents an executing scan.  [ctxDone] tells whether
    [cancel] was called on the context of the scan. *)
Record ScanExecution : Type := {
  ID : string;
  ScanSessionID : string;
  ModuleName : string;
  ScanTarget : string;
  ScanStatus : string;
  ScanProgress : float;
  Results : gmap string (list ModuleResult);
  Error : string;
  ScanOptions : gmap string Value;
  ctxDone : bool
}.

(** The statements sent to the database. *)
Inductive DbOp : Type :=
| DbInsert (id session module target status : string) (progress : float)
| DbUpdate (id status : string) (progress : float) (error : string).

(** Where [executeScan] stands, statement by statement. *)
Inductive ExecPc : Type :=
| PcSetRunning      (* scan.Status = "running" *)
| PcSetProgress     (* scan.Progress = 0.1 *)
| PcUpdate1         (* sm.updateScanInDB(scan) *)
| PcBroadcast1      (* sm.broadcastScanUpdate(scan) *)
| PcSpawnTicker     (* time.NewTicker; go func() { ... }() *)
| PcExecute         (* result, err := module.Execute(scan.Target) *)
| PcCancel (r : Outcome)         (* scan.cancel() *)
| PcFinalStatus (r : Outcome)    (* scan.Status = "failed" / "completed" *)
| PcFinalPayload (r : Outcome)   (* scan.Error = ... / scan.Results = ... *)
| PcFinalProgress   (* scan.Progress = 1.0 *)
| PcUpdate2         (* sm.updateScanInDB(scan) *)
| PcBroadcast2      (* sm.broadcastScanUpdate(scan) *)
| PcSession         (* the results go into the session *)
| PcDone.

(** Where the progress goroutine stands. *)
Inductive TickerPc : Type :=
| TkNone            (* not started *)
| TkSelect          (* in [select] *)
| TkCondStatus      (* a tick came: reads [scan.Status == "running"] *)
| TkCondProgress    (* reads [scan.Progress < 0.9] *)
| TkLoad            (* [scan.Progress += 0.1]: reads the field *)
| TkStore (v : float)   (* ... and writes the sum back *)
| TkBroadcast       (* sm.broadcastScanUpdate(scan) *)
| TkExit.           (* returned through [<-scan.ctx.Done()] *)

(** A goroutine running [executeScan(scan, module)], with its progress
    goroutine. *)
Record Task : Type := {
  t_scan : nat;
  t_module : Module;
  t_pc : ExecPc;
  t_ticker : TickerPc
}.

(** ScanManager manages scan execution.  [sm.scans] maps an id to a
    pointer; [heap] holds the records the pointers lead to.  [db] is what
    was sent to the database, [broadcasts] the lines
    [broadcastScanUpdate] wrote: id, status, progress. *)
Record ScanManager : Type := {
  app : Application;
  heap : list ScanExecution;
  scans : gmap string nat;
  db : list DbOp;
  broadcasts : list (string * string * float);
  tasks : list Task
}.

Definition NewScanManager (a : Application) : ScanManager :=
  {| app := a; heap := []; scans := ∅; db := []; broadcasts := []; tasks := [] |}.

Definition storeScanInDB (scan : ScanExecution) : DbOp :=
  DbInsert (ID scan) (ScanSessionID scan) (ModuleName scan) (ScanTarget scan)
    (ScanStatus scan) (ScanProgress scan).

Definition updateScanInDB (scan : ScanExecution) : DbOp :=
  DbUpdate (ID scan) (ScanStatus scan) (ScanProgress scan) (Error scan).

Definition broadcastScanUpdate (scan : ScanExecution) : string * string * float :=
  (ID scan, ScanStatus scan, ScanProgress scan).

(** StartScan starts a new scan execution.  [newID] is what
    [generateScanID()] returns.  The result is the pointer to the new
    record, or the error. *)
Definition StartScan (sm : ScanManager) (newID : string)
    (sessionID moduleName target : string) (options : gmap string Value)
    : ScanManager * (nat + string) :=
  match GetModule (app sm) moduleName with
  | None => (sm, inr ("module " ++ moduleName ++ " not found"))
  | Some module =>
      let scan := {| ID := newID; ScanSessionID := sessionID;
                     ModuleName := moduleName; ScanTarget := target;
                     ScanStatus := "pending"; ScanProgress := 0%float;
                     Results := ∅; Error := ""; ScanOptions := options;
                     ctxDone := false |} in
      let ptr := length (heap sm) in
      ({| app := app sm;
          heap := (heap sm ++ [scan])%list;
          scans := <[newID := ptr]> (scans sm);
          db := (db sm ++ [storeScanInDB scan])%list;
          broadcasts := broadcasts sm;
          (* go sm.executeScan(scan, module) *)
          tasks := (tasks sm ++ [{| t_scan := ptr; t_module := module;
                                    t_pc := PcSetRunning; t_ticker := TkNone |}])%list |},
       inl ptr)
  end.

(** GetScan returns a scan by ID *)
Definition GetScan (sm : ScanManager) (scanID : string) : option ScanExecution :=
  ptr ← scans sm !! scanID; heap sm !! ptr.

Definition cancelled (scan : ScanExecution) : ScanExecution :=
  {| ID := ID scan; ScanSessionID := ScanSessionID scan;
     ModuleName := ModuleName scan; ScanTarget := ScanTarget scan;
     ScanStatus := "cancelled"; ScanProgress := ScanProgress scan;
     Results := Results scan; Error := Error scan;
     ScanOptions := ScanOptions scan; ctxDone := true |}.

(** CancelScan cancels a running scan *)
Definition CancelScan (sm : ScanManager) (scanID : string)
    : ScanManager * option string :=
  match scans sm !! scanID with
  | None => (sm, Some ("scan " ++ scanID ++ " not found"))
  | Some ptr =>
      match heap sm !! ptr with
      | None => (sm, None)
      | Some scan =>
          if bool_decide (ScanStatus scan = "running") then
            let scan' := cancelled scan in
            ({| app := app sm;
                heap := <[ptr := scan']> (heap sm);
                scans := scans sm;
                db := (db sm ++ [updateScanInDB scan'])%list;
                broadcasts := broadcasts sm;
                tasks := tasks sm |}, None)
          else (sm, None)
      end
  end.

(** *** [executeScan], one statement at a time *)

Definition with_status (s : string) (scan : ScanExecution) : ScanExecution :=
  {| ID := ID scan; ScanSessionID := ScanSessionID scan;
     ModuleName := ModuleName scan; ScanTarget := ScanTarget scan;
     ScanStatus := s; ScanProgress := ScanProgress scan;
     Results := Results scan; Error := Error scan;
     ScanOptions := ScanOptions scan; ctxDone := ctxDone scan |}.

Definition with_progress (p : float) (scan : ScanExecution) : ScanExecution :=
  {| ID := ID scan; ScanSessionID := ScanSessionID scan;
     ModuleName := ModuleName scan; ScanTarget := ScanTarget scan;
     ScanStatus := ScanStatus scan; ScanProgress := p;
     Results := Results scan; Error := Error scan;
     ScanOptions := ScanOptions scan; ctxDone := ctxDone scan |}.

Definition with_error (e : string) (scan : ScanExecution) : ScanExecution :=
  {| ID := ID scan; ScanSessionID := ScanSessionID scan;
     ModuleName := ModuleName scan; ScanTarget := ScanTarget scan;
     ScanStatus := ScanStatus scan; ScanProgress := ScanProgress scan;
     Results := Results scan; Error := e;
     ScanOptions := ScanOptions scan; ctxDone := ctxDone scan |}.

Definition with_results (r : gmap string (list ModuleResult))
    (scan : ScanExecution) : ScanExecution :=
  {| ID := ID scan; ScanSessionID := ScanSessionID scan;
     ModuleName := ModuleName scan; ScanTarget := ScanTarget scan;
     ScanStatus := ScanStatus scan; ScanProgress := ScanProgress scan;
     Results := r; Error := Error scan;
     ScanOptions := ScanOptions scan; ctxDone := ctxDone scan |}.

(** [scan.cancel()] *)
Definition with_cancel (scan : ScanExecution) : ScanExecution :=
  {| ID := ID scan; ScanSessionID := ScanSessionID scan;
     ModuleName := ModuleName scan; ScanTarget := ScanTarget scan;
     ScanStatus := ScanStatus scan; ScanProgress := ScanProgress scan;
     Results := Results scan; Error := Error scan;
     ScanOptions := ScanOptions scan; ctxDone := true |}.

Definition at_pc (t : Task) (pc : ExecPc) : Task :=
  {| t_scan := t_scan t; t_module := t_module t; t_pc := pc;
     t_ticker := t_ticker t |}.

Definition at_ticker (t : Task) (tk : TickerPc) : Task :=
  {| t_scan := t_scan t; t_module := t_module t; t_pc := t_pc t;
     t_ticker := tk |}.

(** The state after task [i] became [t] and wrote [scan] through its
    pointer. *)
Definition commit (sm : ScanManager) (i : nat) (t : Task) (scan : ScanExecution)
    : ScanManager :=
  {| app := app sm; heap := <[t_scan t := scan]> (heap sm); scans := scans sm;
     db := db sm; broadcasts := broadcasts sm;
     tasks := <[i := t]> (tasks sm) |}.

Definition log_db (op : DbOp) (sm : ScanManager) : ScanManager :=
  {| app := app sm; heap := heap sm; scans := scans sm;
     db := (db sm ++ [op])%list; broadcasts := broadcasts sm; tasks := tasks sm |}.

Definition log_broadcast (l : string * string * float) (sm : ScanManager)
    : ScanManager :=
  {| app := app sm; heap := heap sm; scans := scans sm; db := db sm;
     broadcasts := (broadcasts sm ++ [l])%list; tasks := tasks sm |}.

Definition with_app (a : Application) (sm : ScanManager) : ScanManager :=
  {| app := a; heap := heap sm; scans := scans sm; db := db sm;
     broadcasts := broadcasts sm; tasks := tasks sm |}.

(** Store results in session *)
Definition storeInSession (a : Application) (scan : ScanExecution) : Application :=
  match GetSession a (ScanSessionID scan) with
  | Some session =>
      UpdateSession a
        {| SessID := SessID session;
           SessResults := <[ModuleName scan := Results scan]> (SessResults session) |}
  | None => a
  end.

(** The next statement of the goroutine [executeScan] of task [i]. *)
Definition exec_main (sm : ScanManager) (i : nat) : option ScanManager :=
  t ← tasks sm !! i;
  scan ← heap sm !! t_scan t;
  match t_pc t with
  | PcSetRunning =>
      Some (commit sm i (at_pc t PcSetProgress) (with_status "running" scan))
  | PcSetProgress =>
      Some (commit sm i (at_pc t PcUpdate1) (with_progress 0.1%float scan))
  | PcUpdate1 =>
      Some (log_db (updateScanInDB scan) (commit sm i (at_pc t PcBroadcast1) scan))
  | PcBroadcast1 =>
      Some (log_broadcast (broadcastScanUpdate scan)
              (commit sm i (at_pc t PcSpawnTicker) scan))
  | PcSpawnTicker =>
      Some (commit sm i (at_ticker (at_pc t PcExecute) TkSelect) scan)
  | PcExecute =>
      Some (commit sm i (at_pc t (PcCancel (Execute (t_module t) (ScanTarget scan))))
              scan)
  | PcCancel r =>
      Some (commit sm i (at_pc t (PcFinalStatus r)) (with_cancel scan))
  | PcFinalStatus r =>
      Some (commit sm i (at_pc t (PcFinalPayload r))
              (with_status (match r with inr _ => "failed" | inl _ => "completed" end)
                 scan))
  | PcFinalPayload r =>
      Some (commit sm i (at_pc t PcFinalProgress)
              (match r with
               | inr msg => with_error msg scan
               | inl result => with_results {[ "data" := result ]} scan
               end))
  | PcFinalProgress =>
      Some (commit sm i (at_pc t PcUpdate2) (with_progress 1%float scan))
  | PcUpdate2 =>
      Some (log_db (updateScanInDB scan) (commit sm i (at_pc t PcBroadcast2) scan))
  | PcBroadcast2 =>
      Some (log_broadcast (broadcastScanUpdate scan)
              (commit sm i (at_pc t PcSession) scan))
  | PcSession =>
      Some (with_app (storeInSession (app sm) scan)
              (commit sm i (at_pc t PcDone) scan))
  | PcDone => None
  end.

(** The ticker of task [i] fires and the [select] of the progress
    goroutine takes that case.  [defer progressTicker.Stop()] ends the
    ticks when [executeScan] returns. *)
Definition exec_tick (sm : ScanManager) (i : nat) : option ScanManager :=
  t ← tasks sm !! i;
  scan ← heap sm !! t_scan t;
  match t_ticker t, t_pc t with
  | TkSelect, PcDone => None
  | TkSelect, _ => Some (commit sm i (at_ticker t TkCondStatus) scan)
  | _, _ => None
  end.

(** The [select] of the progress goroutine takes [<-scan.ctx.Done()]. *)
Definition exec_ticker_exit (sm : ScanManager) (i : nat) : option ScanManager :=
  t ← tasks sm !! i;
  scan ← heap sm !! t_scan t;
  match t_ticker t with
  | TkSelect => if ctxDone scan then Some (commit sm i (at_ticker t TkExit) scan)
                else None
  | _ => None
  end.

(** The next step of the progress goroutine of task [i] once a tick came:
    [if scan.Status == "running" && scan.Progress < 0.9
       { scan.Progress += 0.1; sm.broadcastScanUpdate(scan) }].
    Nothing orders these reads and writes with those of [executeScan]:
    neither goroutine holds [sm.mutex]. *)
Definition exec_ticker (sm : ScanManager) (i : nat) : option ScanManager :=
  t ← tasks sm !! i;
  scan ← heap sm !! t_scan t;
  match t_ticker t with
  | TkCondStatus =>
      Some (commit sm i
              (at_ticker t (if bool_decide (ScanStatus scan = "running")
                            then TkCondProgress else TkSelect)) scan)
  | TkCondProgress =>
      Some (commit sm i
              (at_ticker t (if PrimFloat.ltb (ScanProgress scan) 0.9%float
                            then TkLoad else TkSelect)) scan)
  | TkLoad => Some (commit sm i (at_ticker t (TkStore (ScanProgress scan))) scan)
  | TkStore v =>
      Some (commit sm i (at_ticker t TkBroadcast)
              (with_progress (v + 0.1)%float scan))
  | TkBroadcast =>
      Some (log_broadcast (broadcastScanUpdate scan)
              (commit sm i (at_ticker t TkSelect) scan))
  | _ => None
  end.

(** What can happen next: a call from the API layer or a step of one of
    the goroutines. *)
Inductive Label : Type :=
| LStart (newID sessionID moduleName target : string) (options : gmap string Value)
| LCancel (scanID : string)
| LMain (i : nat)
| LTick (i : nat)
| LTicker (i : nat)
| LTickerExit (i : nat).

Definition sys_exec (l : Label) (sm : ScanManager) : option ScanManager :=
  match l with
  | LStart newID sessionID moduleName target options =>
      Some (fst (StartScan sm newID sessionID moduleName target options))
  | LCancel scanID => Some (fst (CancelScan sm scanID))
  | LMain i => exec_main sm i
  | LTick i => exec_tick sm i
  | LTicker i => exec_ticker sm i
  | LTickerExit i => exec_ticker_exit sm i
  end.

Fixpoint sys_run (ls : list Label) (sm : ScanManager) : option ScanManager :=
  match ls with
  | [] => Some sm
  | l :: rest => match sys_exec l sm with
                 | Some sm' => sys_run rest sm'
                 | None => None
                 end
  end.

(** The progress values [broadcastScanUpdate] reported for a scan. *)
Definition observed (sm : ScanManager) (scanID : string) : list float :=
  map snd (List.filter (fun l => bool_decide (fst (fst l) = scanID)) (broadcasts sm)).

(** ** Histories of calls on a module scaffold *)

Inductive BaseCall : Type :=
| CStop
| CIsStopped
| CSetStatus (st : string) (progress : float) (message : string).

Definition do_call (b : BaseModule) (c : BaseCall) : BaseModule :=
  match c with
  | CStop => Stop b
  | CIsStopped => fst (IsStopped b)
  | CSetStatus st progress message => SetStatus b st progress message
  end.

(** The scaffold [NewBaseModule] made, after the calls [cs]. *)
Definition history (i : ModuleInfo) (cs : list BaseCall) : BaseModule :=
  foldl do_call (NewBaseModule i) cs.

(** [n] calls of [IsStopped] in a row: what they returned, and the
    scaffold they leave. *)
Fixpoint polls (n : nat) (b : BaseModule) : list bool * BaseModule :=
  match n with
  | O => ([], b)
  | S k => let '(b1, r) := IsStopped b in
           let '(rs, b2) := polls k b1 in (r :: rs, b2)
  end.

Definition is_complete (r : ModuleResult) : bool :=
  bool_decide (Type_ r = "complete").

Definition is_poll (c : BaseCall) : bool :=
  match c with CIsStopped => true | _ => false end.

(** ** Concrete runs *)

(** A host on which every port accepts the connection. *)
Definition env_all_open : Env :=
  {| parseIP := fun _ => true; lookupHost := fun _ => true;
     scanPort := fun _ _ => true;
     detectService := fun _ _ => ""; grabBanner := fun _ _ => "";
     parseCustom := fun _ => [] |}.

(** The host 10.0.0.5, on which only port 22 accepts the connection, and
    a resolver that knows no name: "10.0.0.5" is the one target that
    parses as an IP address or resolves. *)
Definition env_ssh_only : Env :=
  {| parseIP := fun s => bool_decide (s = "10.0.0.5");
     lookupHost := fun _ => false;
     scanPort := fun _ port => bool_decide (port = 22);
     detectService := fun _ _ => ""; grabBanner := fun _ _ => "";
     parseCustom := fun _ => [] |}.

Definition input_well_known : ModuleInput :=
  {| Target := "10.0.0.5";
     Options := {[ "ports" := VString "well-known" ]};
     SessionID := "s1" |}.

Definition input_common : ModuleInput :=
  {| Target := "10.0.0.5"; Options := ∅; SessionID := "s1" |}.

(** The application with the port scanner registered through its adapter,
    and the session [s1]. *)
Definition app_port_scan : Application :=
  {| modules := {[ "port_scan" :=
                     ModuleAdapter (iface := PortScan_iface env_ssh_only) NewPortScanModule ]};
     sessions := {[ "s1" := {| SessID := "s1"; SessResults := ∅ |} ]} |}.

(** [StartScan] and the first statements of [executeScan], up to the call
    of the module. *)
Definition sched_start (target : string) : list Label :=
  [LStart "scan_1" "s1" "port_scan" target ∅;
   LMain 0; LMain 0; LMain 0; LMain 0; LMain 0]%nat.

(** The statements of [executeScan] from the return of the module to the
    second broadcast. *)
Definition sched_finish : list Label :=
  [LMain 0; LMain 0; LMain 0; LMain 0; LMain 0; LMain 0; LMain 0]%nat.

(** The scan is cancelled while the module runs; the module then returns. *)
Definition sched_cancel : list Label :=
  (sched_start "10.0.0.5" ++ [LCancel "scan_1"] ++ sched_finish
   ++ [LMain 0])%list%nat.

(** A tick is taken while the module runs; the progress goroutine has
    read [scan.Progress] for its [+=] when the module returns and
    [executeScan] runs to its second broadcast; the goroutine then writes
    its sum back, broadcasts, and leaves through [ctx.Done()]. *)
Definition sched_race : list Label :=
  (sched_start "10.0.0.5"
   ++ [LTick 0; LTicker 0; LTicker 0; LTicker 0]
   ++ sched_finish
   ++ [LTicker 0; LTicker 0; LTickerExit 0; LMain 0])%list%nat.

(** Three ports, two slots: the first two checks are in flight and the
    third candidate waits. *)
Definition fan_example : FanOut Z :=
  {| pending := [];
     workers := [(80, Checking); (443, Checking); (8080, Waiting)];
     sem := Chan 2 [true; true] |}.

(** ** Invariants *)

(** The stop channel keeps its single slot, and the slot is empty or holds
    one [true]. *)
Definition stop_inv (b : BaseModule) : Prop :=
  cap (stopCh b) = 1%nat /\ (buf (stopCh b) = [] \/ buf (stopCh b) = [true]).

(** The channel [c'] is the channel [c] with advisory events queued behind
    what it held. *)
Definition grows_advisory (c c' : chan ModuleResult) : Prop :=
  cap c' = cap c /\
  exists adv, Forall (fun r => is_complete r = false) adv /\
              buf c' = (buf c ++ adv)%list.

Definition b2n (b : bool) : nat := if b then 1%nat else 0%nat.

(** The semaphore keeps its capacity, and it holds one token per check in
    flight. *)
Definition fan_inv {C} (limit : nat) (f : FanOut C) : Prop :=
  cap (sem f) = limit /\ length (buf (sem f)) = inflight f /\
  (inflight f <= limit)%nat.

(** Every pointer of the map leads to a record allocated earlier, and the
    record carries the address it is filed under. *)
Definition merge_wf (st : EmailEnum.MergeState) : Prop :=
  forall k p, EmailEnum.emailMap st !! k = Some p ->
    (p < EmailEnum.next st)%nat /\
    exists r, EmailEnum.cells st !! p = Some r /\ EmailEnum.Email r = k.

(** ** Findings *)

Definition finding (email name : string) (sources : list string) (confidence : Z)
    : EmailEnum.EmailInfo :=
  {| EmailEnum.Email := email; EmailEnum.EName := name;
     EmailEnum.Position := ""; EmailEnum.Department := "";
     EmailEnum.Sources := sources; EmailEnum.Confidence := confidence;
     EmailEnum.LastSeen := "2025-01-01" |}.

(** What a search engine, Hunter.io and the crawl of the site report on
    one address. *)
Definition alice_search : EmailEnum.EmailInfo :=
  finding "alice@example.com" "" ["Google Search"] 70.

Definition alice_hunter : EmailEnum.EmailInfo :=
  finding "alice@example.com" "Alice Smith" ["example.com"; "Hunter.io"] 90.

Definition alice_crawl : EmailEnum.EmailInfo :=
  finding "alice@example.com" "" ["Website: /contact"] 85.

Definition bob_crawl : EmailEnum.EmailInfo :=
  finding "bob@example.com" "" ["Website: /team"] 85.

(** The loop over the crawl results reaches [alice_crawl] when the map
    already leads to [alice_search] in cell 0; cell 1 is [&email]. *)
Definition st_alice : EmailEnum.MergeState :=
  fst (EmailEnum.alloc (EmailEnum.iterFresh EmailEnum.empty alice_search) alice_crawl).

(** Three techniques find the same address, with the confidences and the
    source labels of the specification's example. *)
Definition alice_A : EmailEnum.EmailInfo := finding "alice@example.com" "" ["A"] 60.
Definition alice_B : EmailEnum.EmailInfo := finding "alice@example.com" "" ["B"] 85.
Definition alice_C : EmailEnum.EmailInfo := finding "alice@example.com" "" ["C"] 70.

(** What the merged mapping says of an address: name, confidence,
    sources. *)
Definition merged_entry (lv : EmailEnum.LoopVar)
    (ts : list (list EmailEnum.EmailInfo)) (email : string)
    : option (string * Z * list string) :=
  r ← EmailEnum.view (EmailEnum.mergePhases lv ts) !! email;
  Some (EmailEnum.EName r, EmailEnum.Confidence r, EmailEnum.Sources r).

(** Hunter.io reports a second address next to the one of alice, and the
    crawl meets the address of alice on the front page before it meets
    it on the contact page. *)
Definition bob_hunter : EmailEnum.EmailInfo :=
  finding "bob@example.com" "Bob Jones" ["partner.org"; "Hunter.io"] 40.

Definition alice_front : EmailEnum.EmailInfo :=
  finding "alice@example.com" "" ["Website: /"] 85.

(** The findings of [xs] for the address [k], in the order of [xs]. *)
Definition findings_of (k : string) (xs : list EmailEnum.EmailInfo)
    : list EmailEnum.EmailInfo :=
  filter (fun e => EmailEnum.Email e = k) xs.

(** ** Scans *)

Definition run_from_start (ls : list Label) : option ScanManager :=
  sys_run ls (NewScanManager app_port_scan).

(** The manager once [scan_1] runs and its module was called. *)
Definition sm_running : ScanManager :=
  default (NewScanManager app_port_scan) (run_from_start (sched_start "10.0.0.5")).

(** Status and progress of a scan, as [GetScan] shows them. *)
Definition scan_state (sm : ScanManager) (scanID : string) : option (string * float) :=
  scan ← GetScan sm scanID; Some (ScanStatus scan, ScanProgress scan).

(** * Properties *)

(** ** Channels *)

Section ChanFacts.
Context {A : Type}.
Implicit Types (c : chan A) (x : A).

Lemma has_room_true c : has_room c = true <-> (length (buf c) < cap c)%nat.
Proof. unfold has_room. apply bool_decide_eq_true. Qed.

Lemma has_room_false c : has_room c = false <-> (cap c <= length (buf c))%nat.
Proof. unfold has_room. rewrite bool_decide_eq_false. lia. Qed.

Lemma try_send_cap c x : cap (fst (try_send c x)) = cap c.
Proof. unfold try_send. by destruct (has_room c). Qed.

Lemma try_send_buf c x :
  buf (fst (try_send c x)) = if has_room c then (buf c ++ [x])%list else buf c.
Proof. unfold try_send. by destruct (has_room c). Qed.

Lemma send_Some c x c' :
  send c x = Some c' ->
  cap c' = cap c /\ buf c' = (buf c ++ [x])%list /\ (length (buf c) < cap c)%nat.
Proof.
  unfold send. destruct (has_room c) eqn:E; [|done].
  intros [= <-]. by apply has_room_true in E.
Qed.

Lemma recv_Some c c' x :
  recv c = Some (c', x) -> cap c' = cap c /\ buf c = x :: buf c'.
Proof. unfold recv. destruct (buf c) eqn:E; [done|]. by intros [= <- <-]. Qed.

End ChanFacts.

(** ** The stop signal of a module scaffold *)

Lemma stop_inv_new i : stop_inv (NewBaseModule i).
Proof. split; [done|by left]. Qed.

Lemma stop_inv_call b c : stop_inv b -> stop_inv (do_call b c).
Proof.
  intros [Hc Hb]. destruct b as [inf st [n q]]; simpl in *; subst n.
  destruct c as [| |s p m]; simpl.
  - destruct Hb as [-> | ->]; split; simpl; auto.
  - destruct Hb as [-> | ->]; split; simpl; auto.
  - split; simpl; auto.
Qed.

Lemma stop_inv_history i cs : stop_inv (history i cs).
Proof.
  unfold history. generalize (stop_inv_new i).
  generalize (NewBaseModule i) as b. induction cs as [|c cs IH]; intros b Hb.
  - done.
  - simpl. apply IH. by apply stop_inv_call.
Qed.

Lemma polls_empty n b :
  buf (stopCh b) = [] -> fst (polls n b) = repeat false n.
Proof.
  intros Hb. induction n as [|n IH]; [done|].
  simpl. unfold IsStopped, try_recv. rewrite Hb.
  destruct (polls n b) as [rs b2]. simpl in *. by rewrite IH.
Qed.

(** C10. After any history of calls, one [Stop()] leaves exactly one token
    in the one-slot stop channel; the first [IsStopped()] after it takes
    the token and returns true, and each of the [n] calls that follow
    returns false. *)
Theorem Stop_signal_not_sticky (i : ModuleInfo) (cs : list BaseCall) (n : nat) :
  let b := Stop (history i cs) in
  cap (stopCh b) = 1%nat /\
  buf (stopCh b) = [true] /\
  snd (IsStopped b) = true /\
  buf (stopCh (fst (IsStopped b))) = [] /\
  fst (polls n (fst (IsStopped b))) = repeat false n.
Proof.
  intros b.
  assert (Hb : cap (stopCh b) = 1%nat /\ buf (stopCh b) = [true]).
  { subst b. destruct (stop_inv_history i cs) as [Hc Hq].
    destruct (history i cs) as [inf st [k q]]; simpl in *; subst k.
    destruct Hq as [-> | ->]; by split. }
  destruct Hb as [Hc Hq].
  assert (He : buf (stopCh (fst (IsStopped b))) = []).
  { unfold IsStopped, try_recv. by rewrite Hq. }
  repeat split; auto.
  - unfold IsStopped, try_recv. by rewrite Hq.
  - by apply polls_empty.
Qed.

(** ** The status of a module scaffold *)

Lemma history_polls_status i cs :
  forallb is_poll cs = true -> status (history i cs) = status (NewBaseModule i).
Proof.
  unfold history. generalize (NewBaseModule i) as b.
  induction cs as [|c cs IH]; intros b H; [done|].
  simpl in H. apply andb_true_iff in H as [Hc Hcs].
  destruct c; try done. simpl. rewrite IH by done.
  unfold IsStopped. by destruct (try_recv (stopCh b)) as [ch [x|]].
Qed.

(** C6, the claim as the code has it.  A scaffold is "idle" with progress
    0 when it is made and as long as it was only polled; after [Stop()]
    its status is "stopped" with [IsRunning] false, whatever came before;
    a "running" status carries the progress [SetStatus] was given, with no
    bound below 1.0; the update to "completed" clears [IsRunning]. *)
Theorem module_status_invariant (i : ModuleInfo) (cs : list BaseCall) :
  (forallb is_poll cs = true ->
   GetStatus (history i cs)
   = {| IsRunning := false; Progress := 0%float; Status := "idle"; Message := "" |}) /\
  (let s := GetStatus (Stop (history i cs)) in
   Status s = "stopped" /\ IsRunning s = false /\
   Progress s = Progress (GetStatus (history i cs))) /\
  (forall progress message,
     let s := GetStatus (SetStatus (history i cs) "running" progress message) in
     Status s = "running" /\ IsRunning s = true /\ Progress s = progress) /\
  (forall progress message,
     let s := GetStatus (SetStatus (history i cs) "completed" progress message) in
     Status s = "completed" /\ IsRunning s = false /\ Progress s = progress).
Proof.
  repeat split; auto.
  - intros H. unfold GetStatus. by rewrite history_polls_status.
  - simpl. by destruct (IsRunning (status (history i cs))).
Qed.

(** What C6 rests on, at a scaffold that was polled twice. *)
Lemma module_status_invariant_witness :
  GetStatus (history port_scan_info [CIsStopped; CIsStopped])
  = {| IsRunning := false; Progress := 0%float; Status := "idle"; Message := "" |}.
Proof.
  apply (module_status_invariant port_scan_info [CIsStopped; CIsStopped]).
  reflexivity.
Defined.

(** C6 as stated fails: after [Stop()] a fresh port scanner is "stopped",
    not "idle"; and the worker of the last port of a scan reports
    "running" with progress 1.0 before the update to "completed". *)
Lemma module_status_counterexample :
  Status (GetStatus (Stop (NewBaseModule port_scan_info))) <> "idle" /\
  (let s := scanPorts env_all_open input_common false false 2 [80; 443]
              {| sl_mod := NewPortScanModule; sl_out := make 100;
                 sl_open := []; sl_closed := []; sl_scanned := 0 |} in
   GetStatus (base (sl_mod s))
   = {| IsRunning := true; Progress := 1%float; Status := "running";
        Message := "Scanned 2/2 ports" |}).
Proof. split; [discriminate|vm_compute; reflexivity]. Qed.

(** ** The event stream *)

Lemma SendResult_cap b out ty d md sid :
  cap (SendResult b out ty d md sid) = cap out.
Proof. unfold SendResult. apply try_send_cap. Qed.

Lemma grows_advisory_refl c : grows_advisory c c.
Proof. split; [done|]. exists []. by rewrite app_nil_r. Qed.

Lemma grows_advisory_trans c1 c2 c3 :
  grows_advisory c1 c2 -> grows_advisory c2 c3 -> grows_advisory c1 c3.
Proof.
  intros [Hc1 (a1 & Ha1 & Hb1)] [Hc2 (a2 & Ha2 & Hb2)]. split; [congruence|].
  exists (a1 ++ a2)%list. split; [by apply Forall_app|].
  by rewrite Hb2, Hb1, <- app_assoc.
Qed.

Lemma SendResult_advisory b out ty d md sid :
  ty <> "complete" -> grows_advisory out (SendResult b out ty d md sid).
Proof.
  intros Hty. split; [apply SendResult_cap|].
  unfold SendResult. rewrite try_send_buf. destruct (has_room out).
  - eexists [_]. split; [|done]. constructor; [|done].
    unfold is_complete. simpl. by apply bool_decide_eq_false.
  - exists []. by rewrite app_nil_r.
Qed.

Lemma scanWorker_out env input sd bg total s port :
  grows_advisory (sl_out s) (sl_out (scanWorker env input sd bg total s port)).
Proof.
  unfold scanWorker. destruct (send _ _); [|apply grows_advisory_refl].
  destruct (scanPort _ _ _); simpl; [|apply grows_advisory_refl].
  by apply SendResult_advisory.
Qed.

Lemma scanPorts_out env input sd bg total ports s :
  grows_advisory (sl_out s) (sl_out (scanPorts env input sd bg total ports s)).
Proof.
  revert s. induction ports as [|port rest IH]; intros s; simpl.
  - apply grows_advisory_refl.
  - destruct (IsStopped (base (sl_mod s))) as [b stopped].
    destruct stopped; [apply grows_advisory_refl|].
    match goal with |- context [scanWorker _ _ _ _ _ ?s1 _] =>
      change (sl_out s) with (sl_out s1) end.
    eapply grows_advisory_trans; [|apply IH]. apply scanWorker_out.
Qed.



(** ** The bounded fan-out *)

Section FanOutFacts.
Context {C : Type}.
Implicit Types (f : FanOut C) (ws : list (C * WorkerPc)).

Lemma count_insert (P : C * WorkerPc -> bool) ws i w w' :
  ws !! i = Some w ->
  (length (List.filter P (<[i := w']> ws)) + b2n (P w)
   = length (List.filter P ws) + b2n (P w'))%nat.
Proof.
  revert i. induction ws as [|a ws IH]; intros i Hi; [done|].
  destruct i as [|i]; simpl in *.
  - injection Hi as ->. destruct (P w), (P w'); simpl; lia.
  - specialize (IH i Hi). destruct (P a); simpl; lia.
Qed.

Lemma count_app (P : C * WorkerPc -> bool) ws w :
  length (List.filter P (ws ++ [w])) = (length (List.filter P ws) + b2n (P w))%nat.
Proof.
  rewrite List.filter_app, length_app. simpl. by destruct (P w).
Qed.

Lemma fan_inv_init (candidates : list C) limit :
  fan_inv limit (fan_init candidates limit).
Proof. repeat split; unfold inflight; simpl; lia. Qed.

Lemma fan_inv_exec limit l f f' :
  fan_inv limit f -> fan_exec l f = Some f' -> fan_inv limit f'.
Proof.
  intros (Hc & Hb & Hle) Hx. unfold fan_inv, inflight in *.
  destruct l as [| |i|i]; simpl in Hx.
  - destruct (pending f) as [|c rest]; [done|]. injection Hx as <-.
    simpl. rewrite count_app. simpl. lia.
  - destruct (pending f) as [|c rest]; [done|]. by injection Hx as <-.
  - destruct (workers f !! i) as [[c []]|] eqn:Hi; try done.
    destruct (send (sem f) true) as [s|] eqn:Hs; [|done]. injection Hx as <-.
    apply send_Some in Hs as (Hc' & Hb' & Hlt).
    pose proof (count_insert is_checking _ _ _ (c, Checking) Hi) as Hn.
    simpl in *. rewrite Hb', length_app. simpl. lia.
  - destruct (workers f !! i) as [[c []]|] eqn:Hi; try done.
    destruct (recv (sem f)) as [[s x]|] eqn:Hr; [|done]. injection Hx as <-.
    apply recv_Some in Hr as (Hc' & Hb').
    pose proof (count_insert is_checking _ _ _ (c, Finished) Hi) as Hn.
    rewrite Hb' in Hb. simpl in *. lia.
Qed.

Lemma fan_inv_run limit ls f f' :
  fan_inv limit f -> fan_run ls f = Some f' -> fan_inv limit f'.
Proof.
  revert f. induction ls as [|l ls IH]; intros f Hf Hrun; simpl in Hrun.
  - by injection Hrun as <-.
  - destruct (fan_exec l f) as [f1|] eqn:Hx; [|done].
    eapply IH; [|done]. by eapply fan_inv_exec.
Qed.


End FanOutFacts.


(** ** The merge of email records *)

Module EmailEnumFacts.
Import EmailEnum.

Lemma max_is_max a b : max a b = Z.max a b.
Proof. unfold max. case_bool_decide; lia. Qed.

(** The [exists] branch of the loop body, on the heap.  When the map
    leads from the address of [email] to the cell [p], the record in [p]
    gets the sources of [email] behind its own and the larger of the two
    confidences; nothing else is written.  [existing] is whatever [p]
    holds when the body runs: the lemma does not say that it still is
    the record filed there ([p] may be [q], the loop variable itself). *)
Lemma mergeBody_exists (st : MergeState) (q p : nat) (email existing : EmailInfo) :
  cells st !! q = Some email ->
  emailMap st !! Email email = Some p ->
  cells st !! p = Some existing ->
  let st' := mergeBody st q in
  emailMap st' = emailMap st /\
  (forall p', p' <> p -> cells st' !! p' = cells st !! p') /\
  exists r,
    cells st' !! p = Some r /\
    Confidence r = Z.max (Confidence existing) (Confidence email) /\
    Sources r = (Sources existing ++ Sources email)%list /\
    (forall s, s ∈ Sources r <-> s ∈ Sources existing \/ s ∈ Sources email) /\
    length (Sources r) = (length (Sources existing) + length (Sources email))%nat /\
    Email r = Email existing /\ EName r = EName existing /\
    Position r = Position existing /\ Department r = Department existing /\
    LastSeen r = LastSeen existing.
Proof.
  intros Hq Hm Hp st'. subst st'. unfold mergeBody. rewrite Hq, Hm. simpl.
  unfold mergeInto. rewrite Hp, Hq.
  rewrite lookup_insert_eq.
  assert (Hq1 : exists e1, <[p := set_sources (Sources existing ++ Sources email) existing]>
                  (cells st) !! q = Some e1 /\ Confidence e1 = Confidence email).
  { destruct (decide (p = q)) as [->|Hne].
    - rewrite lookup_insert_eq. eexists. split; [done|].
      simpl. congruence.
    - rewrite lookup_insert_ne by done. eauto. }
  destruct Hq1 as (e1 & -> & Hc1).
  split; [done|]. split.
  { intros p' Hne. by rewrite !lookup_insert_ne. }
  eexists. split; [apply lookup_insert_eq|]. simpl.
  rewrite max_is_max, Hc1.
  repeat split; auto.
  - apply elem_of_app.
  - apply elem_of_app.
  - apply length_app.
Qed.

(** The crawl finding of an address the search engine had found. *)
Lemma mergeBody_exists_alice :
  exists r,
    cells (mergeBody st_alice 1) !! 0%nat = Some r /\
    Confidence r = 85 /\
    Sources r = ["Google Search"; "Website: /contact"].
Proof.
  destruct (mergeBody_exists st_alice 1 0 alice_crawl alice_search)
    as (_ & _ & r & Hr & Hc & Hs & _); [reflexivity..|].
  exists r. auto.
Defined.

Lemma merge_wf_empty : merge_wf empty.
Proof. intros k p H. unfold empty in H. simpl in H. by rewrite lookup_empty in H. Qed.

(** With a variable of its own, an iteration is the merge rule on
    records. *)
Lemma iterFresh_view st x :
  merge_wf st ->
  merge_wf (iterFresh st x) /\ view (iterFresh st x) = mergeRecord (view st) x.
Proof.
  intros Hwf. unfold iterFresh, alloc, mergeBody. simpl.
  rewrite lookup_insert_eq.
  destruct (emailMap st !! Email x) as [p|] eqn:Hm.
  - destruct (Hwf _ _ Hm) as (Hlt & r & Hr & Hk).
    assert (Hne : next st <> p) by lia.
    unfold mergeInto.
    rewrite (lookup_insert_ne _ (next st) p) by done. rewrite Hr.
    rewrite lookup_insert_eq, lookup_insert_eq.
    rewrite (lookup_insert_ne _ p (next st)) by done.
    rewrite lookup_insert_eq. split.
    + intros k p' Hk'. simpl in *. destruct (Hwf _ _ Hk') as (Hlt' & r' & Hr' & Hkr').
      split; [lia|]. destruct (decide (p' = p)) as [->|Hpp].
      * rewrite lookup_insert_eq. eexists. split; [done|]. simpl. congruence.
      * rewrite !lookup_insert_ne by lia. eauto.
    + apply map_eq. intros k. unfold view, mergeRecord. simpl.
      rewrite lookup_omap. rewrite (lookup_omap _ (emailMap st) (Email x)), Hm.
      simpl. rewrite Hr.
      destruct (decide (k = Email x)) as [->|Hkx].
      * rewrite Hm. simpl. by rewrite !lookup_insert_eq.
      * rewrite lookup_insert_ne by done. rewrite lookup_omap.
        destruct (emailMap st !! k) as [p'|] eqn:Hk'; [|done]. simpl.
        destruct (Hwf _ _ Hk') as (Hlt' & r' & Hr' & Hkr').
        assert (p' <> p).
        { intros ->. rewrite Hr in Hr'. injection Hr' as <-. congruence. }
        by rewrite !lookup_insert_ne by lia.
  - split.
    + intros k p' Hk'. simpl in *.
      destruct (decide (k = Email x)) as [->|Hkx].
      * rewrite lookup_insert_eq in Hk'. injection Hk' as <-.
        split; [lia|]. rewrite lookup_insert_eq. eauto.
      * rewrite lookup_insert_ne in Hk' by done.
        destruct (Hwf _ _ Hk') as (Hlt' & r' & Hr' & Hkr').
        split; [lia|]. rewrite lookup_insert_ne by lia. eauto.
    + apply map_eq. intros k. unfold view, mergeRecord. simpl.
      rewrite lookup_omap. rewrite (lookup_omap _ (emailMap st) (Email x)), Hm.
      simpl.
      destruct (decide (k = Email x)) as [->|Hkx].
      * by rewrite !lookup_insert_eq; simpl; rewrite lookup_insert_eq.
      * rewrite !lookup_insert_ne by done. rewrite lookup_omap.
        destruct (emailMap st !! k) as [p'|] eqn:Hk'; [|done]. simpl.
        destruct (Hwf _ _ Hk') as (Hlt' & _).
        by rewrite lookup_insert_ne by lia.
Qed.

Lemma foldl_iterFresh_view xs st :
  merge_wf st ->
  merge_wf (foldl iterFresh st xs) /\
  view (foldl iterFresh st xs) = foldl mergeRecord (view st) xs.
Proof.
  revert st. induction xs as [|x xs IH]; intros st Hwf; [done|].
  simpl. destruct (iterFresh_view st x Hwf) as [Hwf1 Hv1].
  destruct (IH _ Hwf1) as [Hwf2 Hv2]. by rewrite Hv2, Hv1.
Qed.

(** Allocating the variable of a loop changes nothing the map can see. *)
Lemma alloc_view st e :
  merge_wf st ->
  merge_wf (fst (alloc st e)) /\ view (fst (alloc st e)) = view st.
Proof.
  intros Hwf. split.
  - intros k p Hk. simpl in *. destruct (Hwf _ _ Hk) as (Hlt & r & Hr & Hkr).
    split; [lia|]. rewrite lookup_insert_ne by lia. eauto.
  - apply map_eq. intros k. unfold view. simpl. rewrite !lookup_omap.
    destruct (emailMap st !! k) as [p|] eqn:Hk; [|done]. simpl.
    destruct (Hwf _ _ Hk) as (Hlt & _). by rewrite lookup_insert_ne by lia.
Qed.

(** A loop whose variable is shared by its iterations runs its first
    iteration as a loop with a variable per iteration does. *)
Lemma iterShared_first st x :
  iterShared (next st) (fst (alloc st zero)) x = iterFresh st x.
Proof.
  unfold iterShared, iterFresh, store, alloc. simpl.
  by rewrite insert_insert_eq.
Qed.

Lemma mergeLoop_view lv st xs :
  lv = PerIteration \/ (length xs <= 1)%nat ->
  merge_wf st ->
  merge_wf (mergeLoop lv st xs) /\
  view (mergeLoop lv st xs) = foldl mergeRecord (view st) xs.
Proof.
  intros Hlv Hwf. destruct lv; simpl.
  - destruct Hlv as [|Hlen]; [done|].
    destruct xs as [|x [|y xs]]; simpl in *; [| |lia].
    + apply (alloc_view st zero Hwf).
    + pose proof (iterShared_first st x) as E. simpl in E. rewrite E.
      by apply iterFresh_view.
  - by apply foldl_iterFresh_view.
Qed.

Lemma mergePhases_view_from lv ts st :
  lv = PerIteration \/ Forall (fun l => (length l <= 1)%nat) ts ->
  merge_wf st ->
  merge_wf (foldl (mergeLoop lv) st ts) /\
  view (foldl (mergeLoop lv) st ts) = foldl mergeRecord (view st) (concat ts).
Proof.
  revert st. induction ts as [|xs ts IH]; intros st Hlv Hwf; [done|].
  simpl. rewrite foldl_app.
  assert (H1 : lv = PerIteration \/ (length xs <= 1)%nat).
  { destruct Hlv as [|H]; [by left|]. right. by inversion H. }
  assert (H2 : lv = PerIteration \/ Forall (fun l => (length l <= 1)%nat) ts).
  { destruct Hlv as [|H]; [by left|]. right. by inversion H. }
  destruct (mergeLoop_view lv st xs H1 Hwf) as [Hwf1 Hv1].
  destruct (IH _ H2 Hwf1) as [Hwf2 Hv2]. by rewrite Hv2, Hv1.
Qed.

Lemma view_empty : view empty = ∅.
Proof. unfold view, empty. simpl. apply omap_empty. Qed.

Lemma mergePhases_view lv ts :
  lv = PerIteration \/ Forall (fun l => (length l <= 1)%nat) ts ->
  view (mergePhases lv ts) = foldl mergeRecord ∅ (concat ts).
Proof.
  intros Hlv. unfold mergePhases.
  destruct (mergePhases_view_from lv ts empty Hlv merge_wf_empty) as [_ ->].
  by rewrite view_empty.
Qed.

(** *** The findings of one address *)

Lemma foldl_merged_fields rest x :
  Confidence (foldl merged x rest)
  = foldl Z.max (Confidence x) (map Confidence rest) /\
  Sources (foldl merged x rest) = concat (map Sources (x :: rest)) /\
  same_fields (foldl merged x rest) x.
Proof.
  revert x. induction rest as [|y rest IH]; intros x; simpl.
  - rewrite app_nil_r. by repeat split.
  - destruct (IH (merged x y)) as (Hc & Hs & Hf). rewrite Hc, Hs. simpl.
    rewrite max_is_max, <- app_assoc.
    destruct Hf as (? & ? & ? & ? & ?). by repeat split.
Qed.

Lemma foldl_mergeRecord_lookup xs m k :
  foldl mergeRecord m xs !! k =
  match m !! k with
  | Some r => Some (foldl merged r (findings_of k xs))
  | None => match findings_of k xs with
            | [] => None
            | x :: rest => Some (foldl merged x rest)
            end
  end.
Proof.
  revert m. induction xs as [|x xs IH]; intros m; simpl.
  - by destruct (m !! k).
  - rewrite IH. unfold findings_of. rewrite filter_cons. unfold mergeRecord.
    destruct (decide (Email x = k)) as [<-|Hne].
    + destruct (m !! Email x) as [r|] eqn:Hm; by rewrite lookup_insert_eq.
    + destruct (m !! Email x) as [r|] eqn:Hm; by rewrite lookup_insert_ne.
Qed.

(** With a variable per iteration the loops do what they are written
    for, whatever the techniques report: the record of an address has the
    largest confidence of its findings and the sources of all of them,
    none dropped, in the order of the findings; its other fields are
    those of the first finding. *)
Lemma merge_rule_per_iteration (ts : list (list EmailInfo)) (k : string) :
  match findings_of k (concat ts) with
  | [] => view (mergePhases PerIteration ts) !! k = None
  | x :: rest =>
      exists r, view (mergePhases PerIteration ts) !! k = Some r /\
        Confidence r = foldl Z.max (Confidence x) (map Confidence rest) /\
        Sources r = concat (map Sources (x :: rest)) /\
        same_fields r x
  end.
Proof.
  rewrite mergePhases_view by (by left).
  rewrite foldl_mergeRecord_lookup, lookup_empty.
  destruct (findings_of k (concat ts)) as [|x rest]; [done|].
  eexists. split; [done|]. apply foldl_merged_fields.
Qed.

(** C3, a defect of the merge loops.  Hunter.io reports alice (confidence
    90) and bob (confidence 40), the crawl then finds alice on the contact
    page (confidence 85).  The claim asks for the merge of the two
    findings of alice: confidence 90 and the sources of both.  With a
    variable per iteration the loops yield exactly that.  With one
    variable per loop [&email] is the same cell in every iteration of the
    Hunter.io loop, so the map leads from the address of alice to the
    record of bob, and the crawl finding is merged into it: alice is
    reported with the name and the sources of bob and confidence 85.
    Within one loop the same happens to an address found twice: the crawl
    that meets alice on the front page and on the contact page reports
    the contact page twice and the front page not at all. *)
Theorem merge_rule_aliased :
  merged alice_hunter alice_crawl
  = finding "alice@example.com" "Alice Smith"
      ["example.com"; "Hunter.io"; "Website: /contact"] 90 /\
  view (mergePhases PerIteration [[alice_hunter; bob_hunter]; [alice_crawl]])
    !! "alice@example.com"
  = Some (merged alice_hunter alice_crawl) /\
  view (mergePhases PerLoop [[alice_hunter; bob_hunter]; [alice_crawl]])
    !! "alice@example.com"
  = Some (finding "bob@example.com" "Bob Jones"
            ["partner.org"; "Hunter.io"; "Website: /contact"] 85) /\
  view (mergePhases PerIteration [[alice_front; alice_crawl]])
    !! "alice@example.com"
  = Some (finding "alice@example.com" ""
            ["Website: /"; "Website: /contact"] 85) /\
  view (mergePhases PerLoop [[alice_front; alice_crawl]])
    !! "alice@example.com"
  = Some (finding "alice@example.com" ""
            ["Website: /contact"; "Website: /contact"] 85).
Proof. vm_compute. repeat split; reflexivity. Qed.

(** *** The order of the findings *)

Lemma agree_refl m : agree m m.
Proof. intros k. by destruct (m !! k). Qed.

Lemma agree_trans m1 m2 m3 : agree m1 m2 -> agree m2 m3 -> agree m1 m3.
Proof.
  intros H12 H23 k. specialize (H12 k). specialize (H23 k).
  destruct (m1 !! k), (m2 !! k), (m3 !! k); try done.
  destruct H12 as [-> ->], H23 as [-> ->]. done.
Qed.

Lemma mergeRecord_agree m1 m2 x :
  agree m1 m2 -> agree (mergeRecord m1 x) (mergeRecord m2 x).
Proof.
  intros H k. unfold mergeRecord. pose proof (H (Email x)) as Hx.
  destruct (m1 !! Email x) as [a|], (m2 !! Email x) as [b|]; try done;
    (destruct (decide (k = Email x)) as [->|Hk];
     [rewrite !lookup_insert_eq|rewrite !lookup_insert_ne by done; apply H]).
  - destruct Hx as [Hc Hs]. simpl. split; [by rewrite Hc|by rewrite Hs].
  - done.
Qed.

Lemma max_swap a b c : max (max a b) c = max (max a c) b.
Proof. rewrite !max_is_max. lia. Qed.

Lemma max_comm a b : max a b = max b a.
Proof. rewrite !max_is_max. lia. Qed.

Lemma mergeRecord_swap m x y :
  agree (mergeRecord (mergeRecord m x) y) (mergeRecord (mergeRecord m y) x).
Proof.
  intros k. unfold mergeRecord.
  destruct (decide (Email x = Email y)) as [E|E].
  - rewrite <- E.
    destruct (m !! Email x) as [r|] eqn:Hr; rewrite !lookup_insert_eq;
      (destruct (decide (k = Email x)) as [->|Hk];
       [rewrite !lookup_insert_eq|
        rewrite !lookup_insert_ne by done; by destruct (m !! k)]); simpl.
    + split; [apply max_swap|].
      rewrite <- !app_assoc. apply Permutation_app_head, Permutation_app_comm.
    + split; [apply max_comm|apply Permutation_app_comm].
  - destruct (m !! Email x) as [rx|] eqn:Hx, (m !! Email y) as [ry|] eqn:Hy;
      rewrite ?(lookup_insert_ne _ (Email x) (Email y)) by done;
      rewrite ?(lookup_insert_ne _ (Email y) (Email x)) by done;
      rewrite ?Hx, ?Hy;
      (destruct (decide (k = Email x)) as [->|Hkx];
       [rewrite lookup_insert_ne by done; rewrite !lookup_insert_eq; done|]);
      (destruct (decide (k = Email y)) as [->|Hky];
       [rewrite lookup_insert_eq; rewrite lookup_insert_ne by done;
        rewrite lookup_insert_eq; done|]);
      rewrite !lookup_insert_ne by done; by destruct (m !! k).
Qed.

Lemma foldl_mergeRecord_agree xs m1 m2 :
  agree m1 m2 -> agree (foldl mergeRecord m1 xs) (foldl mergeRecord m2 xs).
Proof.
  revert m1 m2. induction xs as [|x xs IH]; intros m1 m2 H; [done|].
  simpl. apply IH. by apply mergeRecord_agree.
Qed.

Lemma foldl_mergeRecord_perm xs ys m :
  xs ≡ₚ ys -> agree (foldl mergeRecord m xs) (foldl mergeRecord m ys).
Proof.
  intros Hp. revert m. induction Hp as [|x xs ys _ IH|x y xs|xs ys zs _ IH1 _ IH2];
    intros m; simpl.
  - apply agree_refl.
  - apply IH.
  - apply foldl_mergeRecord_agree, mergeRecord_swap.
  - eapply agree_trans; [apply IH1|apply IH2].
Qed.

Lemma concat_perm (ts ts' : list (list EmailInfo)) :
  ts ≡ₚ ts' -> concat ts ≡ₚ concat ts'.
Proof.
  induction 1 as [|x xs ys _ IH|x y xs|xs ys zs _ IH1 _ IH2]; simpl.
  - done.
  - by rewrite IH.
  - rewrite !app_assoc. apply Permutation_app_tail, Permutation_app_comm.
  - by rewrite IH1.
Qed.

Lemma same_fields_merged r x : same_fields (merged r x) r.
Proof. by repeat split. Qed.

(** The fields the merge never writes are those of the first record
    filed under the address. *)
Lemma foldl_mergeRecord_first xs m k :
  match foldl mergeRecord m xs !! k with
  | Some r =>
      match m !! k with
      | Some r0 => same_fields r r0
      | None => exists x, first_for k xs = Some x /\ same_fields r x
      end
  | None => m !! k = None /\ first_for k xs = None
  end.
Proof.
  revert m. induction xs as [|x xs IH]; intros m; simpl.
  - destruct (m !! k); [by repeat split|done].
  - specialize (IH (mergeRecord m x)). unfold mergeRecord in *.
    destruct (foldl _ _ xs !! k) as [r|].
    + case_bool_decide as Hk.
      * subst k. destruct (m !! Email x) as [r0|] eqn:Hm;
          rewrite lookup_insert_eq in IH.
        -- destruct IH as (? & ? & ? & ? & ?). repeat split; simpl in *; congruence.
        -- eauto.
      * destruct (m !! Email x) as [r0|] eqn:Hm;
          rewrite lookup_insert_ne in IH by done; exact IH.
    + case_bool_decide as Hk.
      * subst k. destruct (m !! Email x) as [r0|] eqn:Hm;
          rewrite lookup_insert_eq in IH; by destruct IH.
      * destruct (m !! Email x) as [r0|] eqn:Hm;
          rewrite lookup_insert_ne in IH by done; exact IH.
Qed.

(** C4, the claim as the code has it.  When each iteration of a merge
    loop has a record of its own, or no technique reports more than one
    record, merging the lists of the techniques in any order yields the
    same identities, the same confidence for each identity and, up to
    their order, the same sources; the other fields of a merged record
    are those of the first record found for its address, and so follow
    the order. *)
Theorem merge_order_independent (lv : LoopVar) (ts ts' : list (list EmailInfo)) :
  lv = PerIteration \/ Forall (fun l => (length l <= 1)%nat) ts ->
  ts ≡ₚ ts' ->
  agree (view (mergePhases lv ts)) (view (mergePhases lv ts')) /\
  forall k, match view (mergePhases lv ts) !! k with
            | Some r => exists x, first_for k (concat ts) = Some x /\ same_fields r x
            | None => first_for k (concat ts) = None
            end.
Proof.
  intros Hlv Hp.
  assert (Hlv' : lv = PerIteration \/ Forall (fun l => (length l <= 1)%nat) ts').
  { destruct Hlv as [|H]; [by left|]. right. by rewrite <- Hp. }
  rewrite !mergePhases_view by done. split.
  - by apply foldl_mergeRecord_perm, concat_perm.
  - intros k. pose proof (foldl_mergeRecord_first (concat ts) ∅ k) as H.
    rewrite lookup_empty in H.
    destruct (foldl mergeRecord ∅ (concat ts) !! k); [done|by destruct H].
Qed.

(** C4 at the example of the specification, with one loop variable per
    loop: the three techniques in two orders. *)
Lemma merge_order_independent_witness :
  agree (view (mergePhases PerLoop [[alice_A]; [alice_B]; [alice_C]]))
        (view (mergePhases PerLoop [[alice_C]; [alice_A]; [alice_B]])).
Proof.
  apply (merge_order_independent PerLoop [[alice_A]; [alice_B]; [alice_C]]
           [[alice_C]; [alice_A]; [alice_B]]).
  - right. repeat constructor.
  - apply (Permutation_sym (Permutation_cons_append [[alice_A]; [alice_B]] [alice_C])).
Defined.

(** The example of the specification in its six orders: confidence 85
    and the three labels, in the order the techniques came. *)
Lemma alice_three_techniques (lv : LoopVar) :
  map (fun ts => merged_entry lv ts "alice@example.com")
    [ [[alice_A]; [alice_B]; [alice_C]]; [[alice_A]; [alice_C]; [alice_B]];
      [[alice_B]; [alice_A]; [alice_C]]; [[alice_B]; [alice_C]; [alice_A]];
      [[alice_C]; [alice_A]; [alice_B]]; [[alice_C]; [alice_B]; [alice_A]] ]
  = [ Some ("", 85, ["A"; "B"; "C"]); Some ("", 85, ["A"; "C"; "B"]);
      Some ("", 85, ["B"; "A"; "C"]); Some ("", 85, ["B"; "C"; "A"]);
      Some ("", 85, ["C"; "A"; "B"]); Some ("", 85, ["C"; "B"; "A"]) ].
Proof. destruct lv; vm_compute; reflexivity. Qed.

(** C4 as stated fails.  The search engine and Hunter.io both find
    alice@example.com; only Hunter.io knows her name.  Merged in one
    order the record has no name, merged in the other it has one, under
    either rule for the loop variable.  And with one variable per loop,
    a technique that reports two addresses leaves both filed under the
    record of the second, so that even the confidence of bob@example.com
    depends on the order. *)
Lemma merge_order_counterexample :
  (merged_entry PerIteration [[alice_search]; [alice_hunter]] "alice@example.com"
   = Some ("", 90, ["Google Search"; "example.com"; "Hunter.io"]) /\
   merged_entry PerIteration [[alice_hunter]; [alice_search]] "alice@example.com"
   = Some ("Alice Smith", 90, ["example.com"; "Hunter.io"; "Google Search"])) /\
  (merged_entry PerLoop [[alice_search]; [alice_hunter]] "alice@example.com"
   = Some ("", 90, ["Google Search"; "example.com"; "Hunter.io"]) /\
   merged_entry PerLoop [[alice_hunter]; [alice_search]] "alice@example.com"
   = Some ("Alice Smith", 90, ["example.com"; "Hunter.io"; "Google Search"])) /\
  (merged_entry PerLoop [[alice_crawl; bob_crawl]; [alice_hunter]] "bob@example.com"
   = Some ("", 90, ["Website: /team"; "example.com"; "Hunter.io"]) /\
   merged_entry PerLoop [[alice_hunter]; [alice_crawl; bob_crawl]] "bob@example.com"
   = Some ("", 85, ["Website: /team"])).
Proof. vm_compute. repeat split; reflexivity. Qed.

End EmailEnumFacts.

(** ** The scan manager *)

Lemma CancelScan_running (sm : ScanManager) (scanID : string) (ptr : nat)
    (scan : ScanExecution) :
  scans sm !! scanID = Some ptr ->
  heap sm !! ptr = Some scan ->
  ScanStatus scan = "running" ->
  CancelScan sm scanID
  = ({| app := app sm; heap := <[ptr := cancelled scan]> (heap sm);
        scans := scans sm;
        db := (db sm ++ [updateScanInDB (cancelled scan)])%list;
        broadcasts := broadcasts sm; tasks := tasks sm |}, None).
Proof.
  intros Hs Hh Hst. unfold CancelScan.
  by rewrite Hs, Hh, bool_decide_eq_true_2.
Qed.

Lemma GetScan_cancelled (sm : ScanManager) (scanID : string) (ptr : nat)
    (scan : ScanExecution) :
  scans sm !! scanID = Some ptr ->
  heap sm !! ptr = Some scan ->
  ScanStatus scan = "running" ->
  GetScan (fst (CancelScan sm scanID)) scanID = Some (cancelled scan).
Proof.
  intros Hs Hh Hst. rewrite (CancelScan_running sm scanID ptr scan) by done.
  unfold GetScan. simpl. rewrite Hs. simpl.
  apply list_lookup_insert_eq. by eapply lookup_lt_Some.
Qed.

(** C8, the claim as the code has it.  For an id the manager does not
    know, [CancelScan] returns the error "scan ... not found" and changes
    nothing.  For the id of a scan that is not "running" it changes nothing
    and returns no error.  For the id of a "running" scan it returns no
    error, cancels the context of the scan, sets its status to "cancelled",
    leaves its other fields, the other scans and the tasks as they were,
    and sends the update of the status to the database. *)
Theorem CancelScan_spec (sm : ScanManager) (scanID : string) :
  (scans sm !! scanID = None ->
   CancelScan sm scanID = (sm, Some ("scan " ++ scanID ++ " not found"))) /\
  (forall ptr scan,
     scans sm !! scanID = Some ptr -> heap sm !! ptr = Some scan ->
     ScanStatus scan <> "running" ->
     CancelScan sm scanID = (sm, None)) /\
  (forall ptr scan,
     scans sm !! scanID = Some ptr -> heap sm !! ptr = Some scan ->
     ScanStatus scan = "running" ->
     let sm' := fst (CancelScan sm scanID) in
     snd (CancelScan sm scanID) = None /\
     GetScan sm' scanID = Some (cancelled scan) /\
     ScanStatus (cancelled scan) = "cancelled" /\
     ctxDone (cancelled scan) = true /\
     (forall ptr', ptr' <> ptr -> heap sm' !! ptr' = heap sm !! ptr') /\
     scans sm' = scans sm /\ tasks sm' = tasks sm /\ app sm' = app sm /\
     db sm' = (db sm ++ [DbUpdate (ID scan) "cancelled" (ScanProgress scan)
                           (Error scan)])%list).
Proof.
  split; [|split].
  - intros Hs. unfold CancelScan. by rewrite Hs.
  - intros ptr scan Hs Hh Hst. unfold CancelScan.
    by rewrite Hs, Hh, bool_decide_eq_false_2.
  - intros ptr scan Hs Hh Hst sm'. subst sm'.
    split; [by rewrite (CancelScan_running sm scanID ptr scan)|].
    split; [by apply (GetScan_cancelled sm scanID ptr scan)|].
    rewrite (CancelScan_running sm scanID ptr scan) by done. simpl.
    repeat split; auto.
    intros ptr' Hne. by rewrite list_lookup_insert_ne.
Qed.

(** C8 at the running scan [scan_1]. *)
Lemma CancelScan_spec_witness :
  snd (CancelScan sm_running "scan_1") = None /\
  scan_state (fst (CancelScan sm_running "scan_1")) "scan_1"
  = Some ("cancelled", 0.1%float).
Proof.
  destruct (CancelScan_spec sm_running "scan_1") as (_ & _ & H).
  destruct (H 0%nat (with_progress 0.1%float
                       (with_status "running"
                          {| ID := "scan_1"; ScanSessionID := "s1";
                             ModuleName := "port_scan"; ScanTarget := "10.0.0.5";
                             ScanStatus := "pending"; ScanProgress := 0%float;
                             Results := ∅; Error := ""; ScanOptions := ∅;
                             ctxDone := false |})))
    as (Herr & Hget & _); [reflexivity..|].
  split; [exact Herr|]. unfold scan_state. by rewrite Hget.
Defined.

(** C8 as stated fails: for an id the manager does not know the call
    returns an error. *)
Lemma CancelScan_unknown_id :
  CancelScan (NewScanManager app_port_scan) "scan_404"
  = (NewScanManager app_port_scan, Some "scan scan_404 not found").
Proof. reflexivity. Qed.

(** C2, the claim as the code has it.  When a "running" scan is cancelled
    while [executeScan] waits for its module, the scan is recorded as
    "cancelled" and its context is cancelled, and that is all: the
    application and its modules are left as they were (the interface
    [Module] has no stop to call), the task still waits at the call of the
    module, and it goes on only with what [Execute] returns for the target
    of the scan. *)
Theorem cancel_running_scan (sm : ScanManager) (scanID : string) (ptr : nat)
    (scan : ScanExecution) (i : nat) (t : Task) :
  scans sm !! scanID = Some ptr ->
  heap sm !! ptr = Some scan ->
  ScanStatus scan = "running" ->
  tasks sm !! i = Some t -> t_scan t = ptr -> t_pc t = PcExecute ->
  let sm' := fst (CancelScan sm scanID) in
  GetScan sm' scanID = Some (cancelled scan) /\
  ScanStatus (cancelled scan) = "cancelled" /\
  ctxDone (cancelled scan) = true /\
  app sm' = app sm /\
  tasks sm' !! i = Some t /\
  exists sm'',
    exec_main sm' i = Some sm'' /\
    tasks sm'' !! i
    = Some (at_pc t (PcCancel (Execute (t_module t) (ScanTarget scan)))) /\
    GetScan sm'' scanID = Some (cancelled scan).
Proof.
  intros Hs Hh Hst Ht Hp Hpc sm'.
  pose proof (GetScan_cancelled sm scanID ptr scan Hs Hh Hst) as Hget.
  subst sm'. rewrite (CancelScan_running sm scanID ptr scan) in * by done.
  simpl in *.
  assert (Hlt : (ptr < length (heap sm))%nat) by (by eapply lookup_lt_Some).
  split; [exact Hget|]. split; [done|]. split; [done|].
  split; [done|]. split; [done|].
  unfold exec_main. simpl. rewrite Ht. simpl.
  rewrite Hp, list_lookup_insert_eq by done. simpl. rewrite Hpc.
  eexists. split; [reflexivity|]. split.
  - simpl. apply list_lookup_insert_eq. by eapply lookup_lt_Some.
  - unfold GetScan. simpl. rewrite Hs. simpl. rewrite Hp.
    apply list_lookup_insert_eq. by rewrite length_insert.
Qed.

(** C2 at the running scan [scan_1], whose task waits for the port
    scanner. *)
Lemma cancel_running_scan_witness :
  scan_state (fst (CancelScan sm_running "scan_1")) "scan_1"
  = Some ("cancelled", 0.1%float) /\
  app (fst (CancelScan sm_running "scan_1")) = app sm_running.
Proof.
  destruct (cancel_running_scan sm_running "scan_1" 0
              (with_progress 0.1%float
                 (with_status "running"
                    {| ID := "scan_1"; ScanSessionID := "s1";
                       ModuleName := "port_scan"; ScanTarget := "10.0.0.5";
                       ScanStatus := "pending"; ScanProgress := 0%float;
                       Results := ∅; Error := ""; ScanOptions := ∅;
                       ctxDone := false |}))
              0
              {| t_scan := 0;
                 t_module := ModuleAdapter (iface := PortScan_iface env_ssh_only)
                               NewPortScanModule;
                 t_pc := PcExecute; t_ticker := TkSelect |})
    as (Hget & _ & _ & Happ & _); [reflexivity..|].
  split; [|exact Happ]. unfold scan_state. by rewrite Hget.
Defined.

(** C2 as stated fails.  [scan_1] runs, is cancelled and recorded as
    "cancelled"; the port scanner then returns and [executeScan] records
    the scan as "completed", in memory and in the database. *)
Lemma cancelled_scan_overwritten :
  (sm ← run_from_start (sched_start "10.0.0.5"); scan_state sm "scan_1")
  = Some ("running", 0.1%float) /\
  (sm ← run_from_start (sched_start "10.0.0.5" ++ [LCancel "scan_1"]);
   scan_state sm "scan_1")
  = Some ("cancelled", 0.1%float) /\
  (sm ← run_from_start sched_cancel; scan_state sm "scan_1")
  = Some ("completed", 1%float) /\
  (sm ← run_from_start sched_cancel; Some (db sm))
  = Some [DbInsert "scan_1" "s1" "port_scan" "10.0.0.5" "pending" 0%float;
          DbUpdate "scan_1" "running" 0.1%float "";
          DbUpdate "scan_1" "cancelled" 0.1%float "";
          DbUpdate "scan_1" "completed" 1%float ""].
Proof. vm_compute. repeat split; reflexivity. Qed.

(** C5, the claim as the code has it.  [StartScan] fails at once, and
    creates nothing, only when no module is registered under the name.  For
    a registered module it never asks the module to validate the target:
    whatever the target, it files a "pending" scan with progress 0 under
    the new id, sends the record to the database, launches [executeScan]
    and returns the scan; the first statement of [executeScan] then makes
    the scan "running". *)
Theorem StartScan_spec (sm : ScanManager)
    (newID sessionID moduleName target : string) (options : gmap string Value) :
  let r := StartScan sm newID sessionID moduleName target options in
  match GetModule (app sm) moduleName with
  | None => r = (sm, inr ("module " ++ moduleName ++ " not found"))
  | Some module =>
      let scan := {| ID := newID; ScanSessionID := sessionID;
                     ModuleName := moduleName; ScanTarget := target;
                     ScanStatus := "pending"; ScanProgress := 0%float;
                     Results := ∅; Error := ""; ScanOptions := options;
                     ctxDone := false |} in
      let i := length (tasks sm) in
      snd r = inl (length (heap sm)) /\
      GetScan (fst r) newID = Some scan /\
      db (fst r) = (db sm ++ [DbInsert newID sessionID moduleName target
                                "pending" 0%float])%list /\
      tasks (fst r) !! i
      = Some {| t_scan := length (heap sm); t_module := module;
                t_pc := PcSetRunning; t_ticker := TkNone |} /\
      exists sm',
        exec_main (fst r) i = Some sm' /\
        GetScan sm' newID = Some (with_status "running" scan)
  end.
Proof.
  intros r. subst r. unfold StartScan.
  destruct (GetModule (app sm) moduleName) as [module|]; [|done].
  simpl. split; [done|].
  assert (Hh : forall s : ScanExecution,
             (heap sm ++ [s])%list !! length (heap sm) = Some s).
  { intros s. rewrite lookup_app_r by lia. by rewrite Nat.sub_diag. }
  assert (Ht : forall t : Task, (tasks sm ++ [t])%list !! length (tasks sm) = Some t).
  { intros t. rewrite lookup_app_r by lia. by rewrite Nat.sub_diag. }
  split.
  { unfold GetScan. simpl. rewrite lookup_insert_eq. simpl. apply Hh. }
  split; [done|]. split; [apply Ht|].
  unfold exec_main. simpl. rewrite Ht. simpl. rewrite Hh. simpl.
  eexists. split; [reflexivity|].
  unfold GetScan. simpl. rewrite lookup_insert_eq. simpl.
  apply list_lookup_insert_eq. rewrite length_app. simpl. lia.
Qed.

(** C5 as stated fails.  The port scanner rejects the target "not a host"
    (it is no IP address and the resolver does not know it), yet
    [StartScan] returns a scan for it, recorded as "pending", and the scan
    is "running" once [executeScan] has started. *)
Lemma StartScan_skips_validate :
  let input := {| Target := "not a host"; Options := ∅; SessionID := "s1" |} in
  mValidate (ModuleIface := PortScan_iface env_ssh_only) NewPortScanModule input
  = Some (NewModuleError "invalid target: must be valid IP or hostname"
            "INVALID_TARGET") /\
  snd (StartScan (NewScanManager app_port_scan) "scan_1" "s1" "port_scan"
         "not a host" ∅) = inl 0%nat /\
  scan_state (fst (StartScan (NewScanManager app_port_scan) "scan_1" "s1"
                     "port_scan" "not a host" ∅)) "scan_1"
  = Some ("pending", 0%float) /\
  (sm ← run_from_start (sched_start "not a host"); scan_state sm "scan_1")
  = Some ("running", 0.1%float).
Proof. vm_compute. repeat split; reflexivity. Qed.

(** C7 fails on the code.  [scan_1] runs; a tick comes and the progress
    goroutine finds the scan "running" below 0.9 and reads its progress
    0.1 for [scan.Progress += 0.1]; the module returns and [executeScan]
    records "completed" with progress 1.0 and broadcasts it; the goroutine
    then writes 0.1 + 0.1 back and broadcasts.  The progress reported for
    the scan goes 0.1, 1.0, 0.2, and the completed scan is left at 0.2. *)
Lemma executeScan_progress_race :
  (sm ← run_from_start sched_race; Some (observed sm "scan_1"))
  = Some [0.1%float; 1%float; 0.2%float] /\
  (sm ← run_from_start sched_race; scan_state sm "scan_1")
  = Some ("completed", 0.2%float) /\
  (sm ← run_from_start sched_race; Some (map t_pc (tasks sm), map t_ticker (tasks sm)))
  = Some ([PcDone], [TkExit]).
Proof. vm_compute. repeat split; reflexivity. Qed.
